(** * MusicXML export builder of Frescobaldi

    A shallow embedding of [frescobaldi_app/file_export/create_musicxml.py]
    (class [create_musicXML]) and the properties of its tree construction.

    The module is Python 2 code ([from __future__ import unicode_literals],
    no [division] import): [/] on two integers is floor division and
    values of different types are ordered ([None] below every number,
    every number below every string).

    Modelling conventions:
    - the lxml element objects live in a heap ([list element]); an element
      reference is its index, so that the cursors of the builder
      ([current_part], [current_bar], [current_note], [duration], ...)
      alias nodes of the one tree;
    - an instance attribute that [__init__] does not assign is an [option]
      field, and reading it while it is [None] raises [AttributeError];
    - a method is a state transformer that returns a value or raises; an
      exception keeps the mutations made before it;
    - Python scalars are [pyval] (None, integers, strings; floats are not
      modelled), tuple arguments are [pyseq];
    - text is a byte string (the UTF-8 form of the Python unicode object);
      lxml's checks of tag names and of XML-incompatible characters are
      not modelled. *)

From Stdlib Require Import ZArith Lia Ascii.
From stdpp Require Import base option list strings pretty.

Local Open Scope Z_scope.
Set Warnings "-register-all".

(** ** Python values *)

Inductive pyval : Type :=
  | PyNone
  | PyInt (z : Z)
  | PyStr (s : string).

(** A tuple or list argument, or [None]. *)
Definition pyseq : Type := option (list pyval).

Inductive exn : Type :=
  | AttributeError
  | TypeError
  | ValueError
  | IndexError
  | ZeroDivisionError.

Inductive result (A : Type) : Type :=
  | Ok (a : A)
  | Raise (e : exn).
Arguments Ok {A} a.
Arguments Raise {A} e.

(** [bool(v)] *)
Definition truthy (v : pyval) : bool :=
  match v with
  | PyNone => false
  | PyInt z => negb (z =? 0)
  | PyStr s => negb (String.eqb s EmptyString)
  end.

(** [bool(t)] for a tuple, a list or [None] *)
Definition seq_truthy (t : pyseq) : bool :=
  match t with
  | None => false
  | Some [] => false
  | Some (_ :: _) => true
  end.

(** [t[i]] *)
Definition getitem (t : pyseq) (i : nat) : result pyval :=
  match t with
  | None => Raise TypeError
  | Some l => match l !! i with
              | Some v => Ok v
              | None => Raise IndexError
              end
  end.

(** [str(v)] *)
Definition py_str (v : pyval) : string :=
  match v with
  | PyNone => "None"
  | PyInt z => pretty z
  | PyStr s => s
  end.

(** [v >= 0] and [v > 0] with the Python 2 ordering of mixed types. *)
Definition py_ge0 (v : pyval) : bool :=
  match v with
  | PyNone => false
  | PyInt z => 0 <=? z
  | PyStr _ => true
  end.

Definition py_gt0 (v : pyval) : bool :=
  match v with
  | PyNone => false
  | PyInt z => 0 <? z
  | PyStr _ => true
  end.

(** *** [int(s)] on a string: optional blanks, optional sign, digits. *)

Definition is_space (c : ascii) : bool :=
  match c with
  | " "%char | "009"%char | "010"%char | "011"%char | "012"%char
  | "013"%char => true
  | _ => false
  end.

Definition digit_of (c : ascii) : option Z :=
  let n := Z.of_N (Ascii.N_of_ascii c) in
  if (48 <=? n) && (n <=? 57) then Some (n - 48) else None.

Fixpoint lstrip (s : string) : string :=
  match s with
  | String c s' => if is_space c then lstrip s' else s
  | EmptyString => EmptyString
  end.

(** Digits up to the trailing blanks, accumulated left to right. *)
Fixpoint parse_digits (acc : Z) (s : string) : option Z :=
  match s with
  | EmptyString => Some acc
  | String c s' =>
      match digit_of c with
      | Some d => parse_digits (10 * acc + d) s'
      | None => if is_space c
                then match lstrip s' with
                     | EmptyString => Some acc
                     | _ => None
                     end
                else None
      end
  end.

Definition parse_unsigned (s : string) : option Z :=
  match s with
  | String c _ => match digit_of c with
                  | Some _ => parse_digits 0 s
                  | None => None
                  end
  | EmptyString => None
  end.

Definition parse_int (s : string) : option Z :=
  match lstrip s with
  | String "-"%char s' => Z.opp <$> parse_unsigned s'
  | String "+"%char s' => parse_unsigned s'
  | s' => parse_unsigned s'
  end.

(** [int(v)] *)
Definition py_int (v : pyval) : result Z :=
  match v with
  | PyNone => Raise TypeError
  | PyInt z => Ok z
  | PyStr s => match parse_int s with
               | Some z => Ok z
               | None => Raise ValueError
               end
  end.

Fixpoint str_repeat (n : nat) (s : string) : string :=
  match n with
  | O => EmptyString
  | S n' => s +:+ str_repeat n' s
  end.

(** [v * n] for an integer [n] *)
Definition py_mul (v : pyval) (n : Z) : result pyval :=
  match v with
  | PyNone => Raise TypeError
  | PyInt z => Ok (PyInt (z * n))
  | PyStr s => Ok (PyStr (str_repeat (Z.to_nat n) s))
  end.

(** [v / n] for an integer [n]: Python 2 floor division on integers
    ([Z.div] rounds towards minus infinity, as Python does). *)
Definition py_div (v : pyval) (n : Z) : result pyval :=
  match v with
  | PyInt z => if n =? 0 then Raise ZeroDivisionError else Ok (PyInt (z / n))
  | PyNone | PyStr _ => Raise TypeError
  end.

(** ** The element heap of lxml.etree *)

Record element : Type := Element {
  tag : string;
  attrib : list (string * string);
  text : option string;
  children : list nat
}.

Definition add_child (c : nat) (e : element) : element :=
  Element (tag e) (attrib e) (text e) (children e ++ [c]).

Definition with_text (t : option string) (e : element) : element :=
  Element (tag e) (attrib e) t (children e).

(** [etree.Element(tag, **attrs)]: a fresh node at the end of the heap. *)
Definition heap_Element (tg : string) (attrs : list (string * string))
    (h : list element) : nat * list element :=
  (length h, h ++ [Element tg attrs None []]).

(** [etree.SubElement(parent, tag, **attrs)]: a fresh node, appended to the
    children of [parent]. *)
Definition heap_SubElement (parent : nat) (tg : string)
    (attrs : list (string * string)) (h : list element) : nat * list element :=
  (length h, alter (add_child (length h)) parent h ++ [Element tg attrs None []]).

Definition heap_set_text (node : nat) (t : option string)
    (h : list element) : list element :=
  alter (with_text t) node h.

(** ** The builder object and its methods *)

(** The instance attributes of [create_musicXML]. [root], [partlist] and
    [part_count] are assigned by [__init__]; the others exist only once a
    method has assigned them. *)
Record create_musicXML : Type := Builder {
  heap : list element;
  root : nat;
  partlist : nat;
  part_count : Z;
  current_part : option nat;
  bar_nr : option Z;
  current_bar : option nat;
  current_note : option nat;
  duration : option nat;
  current_notation : option nat;
  bar_attr : option nat
}.

Definition set_heap (h : list element) (b : create_musicXML) :=
  Builder h (root b) (partlist b) (part_count b) (current_part b) (bar_nr b)
    (current_bar b) (current_note b) (duration b) (current_notation b)
    (bar_attr b).
Definition set_part_count (n : Z) (b : create_musicXML) :=
  Builder (heap b) (root b) (partlist b) n (current_part b) (bar_nr b)
    (current_bar b) (current_note b) (duration b) (current_notation b)
    (bar_attr b).
Definition set_current_part (x : nat) (b : create_musicXML) :=
  Builder (heap b) (root b) (partlist b) (part_count b) (Some x) (bar_nr b)
    (current_bar b) (current_note b) (duration b) (current_notation b)
    (bar_attr b).
Definition set_bar_nr (n : Z) (b : create_musicXML) :=
  Builder (heap b) (root b) (partlist b) (part_count b) (current_part b)
    (Some n) (current_bar b) (current_note b) (duration b)
    (current_notation b) (bar_attr b).
Definition set_current_bar (x : nat) (b : create_musicXML) :=
  Builder (heap b) (root b) (partlist b) (part_count b) (current_part b)
    (bar_nr b) (Some x) (current_note b) (duration b) (current_notation b)
    (bar_attr b).
Definition set_current_note (x : nat) (b : create_musicXML) :=
  Builder (heap b) (root b) (partlist b) (part_count b) (current_part b)
    (bar_nr b) (current_bar b) (Some x) (duration b) (current_notation b)
    (bar_attr b).
Definition set_duration (x : nat) (b : create_musicXML) :=
  Builder (heap b) (root b) (partlist b) (part_count b) (current_part b)
    (bar_nr b) (current_bar b) (current_note b) (Some x)
    (current_notation b) (bar_attr b).
Definition set_current_notation (x : nat) (b : create_musicXML) :=
  Builder (heap b) (root b) (partlist b) (part_count b) (current_part b)
    (bar_nr b) (current_bar b) (current_note b) (duration b) (Some x)
    (bar_attr b).
Definition set_bar_attr (x : nat) (b : create_musicXML) :=
  Builder (heap b) (root b) (partlist b) (part_count b) (current_part b)
    (bar_nr b) (current_bar b) (current_note b) (duration b)
    (current_notation b) (Some x).

(** *** Methods: state and exceptions *)

Definition M (A : Type) : Type :=
  create_musicXML → result A * create_musicXML.

Definition ret {A} (a : A) : M A := λ b, (Ok a, b).

Definition raise {A} (e : exn) : M A := λ b, (Raise e, b).

Definition bind {A B} (m : M A) (k : A → M B) : M B :=
  λ b, match m b with
       | (Ok a, b') => k a b'
       | (Raise e, b') => (Raise e, b')
       end.

Notation "'let*' x := m 'in' k" := (bind m (λ x, k))
  (at level 10, x name, m at level 100, k at level 200).
Notation "m ;; k" := (bind m (λ _, k))
  (at level 100, k at level 200, right associativity).

Definition lift {A} (r : result A) : M A := λ b, (r, b).

(** [self.f] for an attribute assigned by [__init__] *)
Definition get {A} (f : create_musicXML → A) : M A := λ b, (Ok (f b), b).

(** [self.f] for an attribute that may not exist yet *)
Definition getattr {A} (f : create_musicXML → option A) : M A :=
  λ b, match f b with
       | Some a => (Ok a, b)
       | None => (Raise AttributeError, b)
       end.

(** [self.f = x] *)
Definition setattr {A} (set : A → create_musicXML → create_musicXML)
    (a : A) : M unit :=
  λ b, (Ok tt, set a b).

(** [etree.SubElement(parent, tag, **attrs)] *)
Definition SubElement (parent : nat) (tg : string)
    (attrs : list (string * string)) : M nat :=
  λ b, let '(n, h) := heap_SubElement parent tg attrs (heap b) in
       (Ok n, set_heap h b).

(** [node.text = v]: lxml accepts a string or [None] only. *)
Definition set_text (node : nat) (v : pyval) : M unit :=
  match v with
  | PyNone => λ b, (Ok tt, set_heap (heap_set_text node None (heap b)) b)
  | PyStr s => λ b, (Ok tt, set_heap (heap_set_text node (Some s) (heap b)) b)
  | PyInt _ => raise TypeError
  end.

(** [__init__]: [today] stands for [datetime.date.today()] printed by
    [str]; the source binds it to the local name [encoding_date] and never
    stores it in the tree. *)
Definition __init__ (today : string) : create_musicXML :=
  let '(root, h) := heap_Element "score-partwise" [("version", "3.0")]%string [] in
  let '(identification, h) := heap_SubElement root "identification" [] h in
  let '(encoding, h) := heap_SubElement identification "encoding" [] h in
  let '(software, h) := heap_SubElement encoding "software" [] h in
  let h := heap_set_text software (Some "Frescobaldi"%string) h in
  let '(encoding_date, h) := heap_SubElement encoding "encoding-date" [] h in
  let encoding_date := today in
  let '(partlist, h) := heap_SubElement root "part-list" [] h in
  Builder h root partlist 1 None None None None None None None.

(** *** Building the basic elements *)

Definition create_part (name : pyval) : M unit :=
  let* pl := get partlist in
  let* n := get part_count in
  let* part := SubElement pl "score-part" [("id", "P" +:+ py_str (PyInt n))]%string in
  let* partname := SubElement part "part-name" [] in
  set_text partname name ;;
  let* r := get root in
  let* n := get part_count in
  let* p := SubElement r "part" [("id", "P" +:+ py_str (PyInt n))]%string in
  setattr set_current_part p ;;
  let* n := get part_count in
  setattr set_part_count (n + 1) ;;
  setattr set_bar_nr 1.

Definition create_measure : M unit :=
  let* cp := getattr current_part in
  let* nr := getattr bar_nr in
  let* m := SubElement cp "measure" [("number", py_str (PyInt nr))]%string in
  setattr set_current_bar m ;;
  let* nr := getattr bar_nr in
  setattr set_bar_nr (nr + 1).

(** *** Low-level node creation *)

Definition create_note : M unit :=
  let* cb := getattr current_bar in
  let* n := SubElement cb "note" [] in
  setattr set_current_note n.

Definition add_pitch (step alter octave : pyval) : M unit :=
  let* cn := getattr current_note in
  let* pitch := SubElement cn "pitch" [] in
  let* stepnode := SubElement pitch "step" [] in
  set_text stepnode (PyStr (py_str step)) ;;
  (if truthy alter then
     let* altnode := SubElement pitch "alter" [] in
     set_text altnode (PyStr (py_str alter))
   else ret tt) ;;
  let* octnode := SubElement pitch "octave" [] in
  set_text octnode (PyStr (py_str octave)).

Definition add_accidental (alter : pyval) : M unit :=
  let* cn := getattr current_note in
  let* acc := SubElement cn "accidental" [] in
  if py_gt0 alter then set_text acc (PyStr "sharp")
  else set_text acc (PyStr "flat").

Definition add_div_duration (divdur : pyval) : M unit :=
  let* cn := getattr current_note in
  let* d := SubElement cn "duration" [] in
  setattr set_duration d ;;
  let* d := getattr duration in
  set_text d (PyStr (py_str divdur)).

Definition change_div_duration (newdura : pyval) : M unit :=
  let* d := getattr duration in
  set_text d (PyStr (py_str newdura)).

Definition add_duration_type (durtype : pyval) : M unit :=
  let* cn := getattr current_note in
  let* typenode := SubElement cn "type" [] in
  set_text typenode (PyStr (py_str durtype)).

Definition add_notations : M unit :=
  let* cn := getattr current_note in
  let* n := SubElement cn "notations" [] in
  setattr set_current_notation n.

Definition add_time_modify (fraction : pyseq) : M unit :=
  let* cn := getattr current_note in
  let* timemod_node := SubElement cn "time-modification" [] in
  let* actual_notes := SubElement timemod_node "actual-notes" [] in
  let* f0 := lift (getitem fraction 0) in
  set_text actual_notes f0 ;;
  let* norm_notes := SubElement timemod_node "normal-notes" [] in
  let* f1 := lift (getitem fraction 1) in
  set_text norm_notes f1.

(** The attribute value of [type=ttype] has to be a string for lxml; a
    refused attribute leaves no element behind. *)
Definition add_tuplet_type (ttype : pyval) : M unit :=
  let* nt := getattr current_notation in
  match ttype with
  | PyStr s => let* tuplet := SubElement nt "tuplet" [("type", s)]%string in ret tt
  | PyNone | PyInt _ => raise TypeError
  end.

Definition create_bar_attr : M unit :=
  let* cb := getattr current_bar in
  let* a := SubElement cb "attributes" [] in
  setattr set_bar_attr a.

Definition add_divisions (div : pyval) : M unit :=
  let* ba := getattr bar_attr in
  let* division := SubElement ba "divisions" [] in
  set_text division (PyStr (py_str div)).

Definition add_key (key mode : pyval) : M unit :=
  let* ba := getattr bar_attr in
  let* keynode := SubElement ba "key" [] in
  let* fifths := SubElement keynode "fifths" [] in
  set_text fifths (PyStr (py_str key)) ;;
  let* modenode := SubElement keynode "mode" [] in
  set_text modenode (PyStr (py_str mode)).

Definition add_time (beats beat_type : pyval) : M unit :=
  let* ba := getattr bar_attr in
  let* timenode := SubElement ba "time" [] in
  let* beatnode := SubElement timenode "beats" [] in
  set_text beatnode (PyStr (py_str beats)) ;;
  let* typenode := SubElement timenode "beat-type" [] in
  set_text typenode (PyStr (py_str beat_type)).

Definition add_clef (sign line : pyval) : M unit :=
  let* ba := getattr bar_attr in
  let* clefnode := SubElement ba "clef" [] in
  let* signnode := SubElement clefnode "sign" [] in
  set_text signnode (PyStr (py_str sign)) ;;
  let* linenode := SubElement clefnode "line" [] in
  set_text linenode (PyStr (py_str line)).

(** *** High-level node creation *)

Definition new_note (pitch : pyseq) (org_len durtype divs : pyval) : M unit :=
  create_note ;;
  let* p0 := lift (getitem pitch 0) in
  let* p1 := lift (getitem pitch 1) in
  let* p2 := lift (getitem pitch 2) in
  add_pitch p0 p1 p2 ;;
  let* d4 := lift (py_mul divs 4) in
  let* len := lift (py_int org_len) in
  let* duration := lift (py_div d4 len) in
  add_div_duration duration ;;
  add_duration_type durtype ;;
  let* p1 := lift (getitem pitch 1) in
  if truthy p1 then
    let* p1 := lift (getitem pitch 1) in
    add_accidental p1
  else ret tt.

Definition tuplet_note (fraction : pyseq) (org_len ttype divs : pyval) : M unit :=
  let* d4 := lift (py_mul divs 4) in
  let* f1 := lift (getitem fraction 1) in
  let* n1 := lift (py_int f1) in
  let* a := lift (py_mul d4 n1) in
  let* len := lift (py_int org_len) in
  let* f0 := lift (getitem fraction 0) in
  let* n0 := lift (py_int f0) in
  let b := len * n0 in
  let* duration := lift (py_div a b) in
  change_div_duration duration ;;
  add_time_modify fraction ;;
  if truthy ttype then
    add_notations ;;
    add_tuplet_type ttype
  else ret tt.

Definition new_bar_attr (clef mustime : pyseq) (key mode divs : pyval) : M unit :=
  create_bar_attr ;;
  (if truthy divs then add_divisions divs else ret tt) ;;
  (if py_ge0 key then add_key key mode else ret tt) ;;
  (if seq_truthy mustime then
     let* m0 := lift (getitem mustime 0) in
     let* m1 := lift (getitem mustime 1) in
     add_time m0 m1
   else ret tt) ;;
  (if seq_truthy clef then
     let* c0 := lift (getitem clef 0) in
     let* c1 := lift (getitem clef 1) in
     add_clef c0 c1
   else ret tt).

Definition create_new_node (parentnode : nat) (nodename : string)
    (txt : pyval) : M unit :=
  let* new_node := SubElement parentnode nodename [] in
  set_text new_node (PyStr (py_str txt)).

(** ** The tree under a node

    [xml] is the tree that the heap holds under a node: what a traversal
    of the lxml element sees. *)

Inductive xml : Type :=
  | Node (tg : string) (attrs : list (string * string)) (txt : option string)
      (kids : list xml).

(** The tree under node [i], down to depth [fuel]. *)
Fixpoint subtree (fuel : nat) (h : list element) (i : nat) : option xml :=
  match fuel with
  | O => None
  | S f =>
      match h !! i with
      | None => None
      | Some e =>
          match mapM (subtree f h) (children e) with
          | None => None
          | Some kids => Some (Node (tag e) (attrib e) (text e) kids)
          end
      end
  end.

(** No path of a forest of [length h] nodes is longer than [length h]. *)
Definition to_tree (h : list element) (i : nat) : option xml :=
  subtree (length h) h i.




(** A method keeps [I] whether it returns or raises. *)
Definition preserves {A} (I : create_musicXML → Prop) (m : M A) : Prop :=
  ∀ b, I b → I (m b).2.

(** Text and children of the node at an index. *)
Definition node_text (h : list element) (i : nat) : option (option string) :=
  text <$> h !! i.

Definition node_children (h : list element) (i : nat) : option (list nat) :=
  children <$> h !! i.

(** *** The trees that the methods are expected to build *)














Definition measure_tree (n : Z) (content : list xml) : xml :=
  Node "measure" [("number", pretty n)]%string None content.



(** *** Builders used as examples *)

(** A builder with one part and one open measure. *)
Definition one_bar : create_musicXML :=
  ((create_part (PyStr "Violin") ;; create_measure) (__init__ "2012-06-01")).2.

(** The same after a quarter note C4. *)
Definition one_note : create_musicXML :=
  (new_note (Some [PyStr "C"; PyInt 0; PyInt 4]) (PyStr "8") (PyStr "eighth")
     (PyInt 4) one_bar).2.

(** *** Serialisation: [etree.tostring]

    The serialiser is lxml's, not the repository's. It is modelled on the
    output of libxml2 for a tree without tail text: markup characters are
    escaped, an element without text and children is written [<tag/>], and
    pretty printing puts the children of an element on lines of their own,
    two blanks per level, unless the element holds text. *)











(** *** The rendering of a fresh builder *)







(** *** The calls of a client *)

Inductive call : Type :=
  | CreatePart (name : pyval)
  | CreateMeasure
  | NewNote (pitch : pyseq) (org_len durtype divs : pyval)
  | TupletNote (fraction : pyseq) (org_len ttype divs : pyval)
  | NewBarAttr (clef mustime : pyseq) (key mode divs : pyval)
  | CreateNewNode (parentnode : nat) (nodename : string) (txt : pyval).

Definition do_call (c : call) : M unit :=
  match c with
  | CreatePart name => create_part name
  | CreateMeasure => create_measure
  | NewNote pitch org_len durtype divs => new_note pitch org_len durtype divs
  | TupletNote fraction org_len ttype divs =>
      tuplet_note fraction org_len ttype divs
  | NewBarAttr clef mustime key mode divs =>
      new_bar_attr clef mustime key mode divs
  | CreateNewNode parentnode nodename txt =>
      create_new_node parentnode nodename txt
  end.


(** The calls of a client one after the other, exceptions caught. *)
Definition exec (cs : list call) (b : create_musicXML) : create_musicXML :=
  foldl (λ b c, (do_call c b).2) b cs.

(** Whether a call is [create_part]. *)
Definition makes_part (c : call) : bool :=
  match c with
  | CreatePart _ => true
  | _ => false
  end.


(** *** Scripts that lay out parts and measures *)










(** *** Cursors and the elements they refer to *)

Definition node_tag (h : list element) (i : nat) : option string :=
  tag <$> h !! i.

(** A cursor that is set refers to an element with the tag [tg]. *)
Definition cursor_ok (h : list element) (c : option nat) (tg : string) : Prop :=
  ∀ x, c = Some x → node_tag h x = Some tg.

Definition cursors_ok (b : create_musicXML) : Prop :=
  node_tag (heap b) (root b) = Some "score-partwise"%string
  ∧ node_tag (heap b) (partlist b) = Some "part-list"%string
  ∧ cursor_ok (heap b) (current_part b) "part"
  ∧ cursor_ok (heap b) (current_bar b) "measure"
  ∧ cursor_ok (heap b) (current_note b) "note"
  ∧ cursor_ok (heap b) (duration b) "duration"
  ∧ cursor_ok (heap b) (current_notation b) "notations"
  ∧ cursor_ok (heap b) (bar_attr b) "attributes"
  ∧ (is_Some (current_part b) → is_Some (bar_nr b)).

(** *** What a call may change *)

(** Every element of [h] is in [h'] with the same tag and attributes, its
    children followed by new ones at most. *)
Definition extends (h h' : list element) : Prop :=
  ∀ i e, h !! i = Some e →
    ∃ e', h' !! i = Some e' ∧ tag e' = tag e ∧ attrib e' = attrib e
          ∧ children e `prefix_of` children e'.

Definition builder_extends (b b' : create_musicXML) : Prop :=
  extends (heap b) (heap b') ∧ root b' = root b ∧ partlist b' = partlist b
  ∧ part_count b ≤ part_count b'.

(** A method that only appends, whether it returns or raises. *)
Definition grows {A} (m : M A) : Prop := ∀ b, builder_extends b (m b).2.

(** The calls that lay out parts and measures. *)
Definition is_layout (c : call) : bool :=
  match c with
  | CreatePart _ | CreateMeasure => true
  | _ => false
  end.

(** The fields that number parts and measures, and the measure cursor. *)
Definition layout_fields (b : create_musicXML)
    : Z * option nat * option Z * option nat :=
  (part_count b, current_part b, bar_nr b, current_bar b).




(** *** The counters after a script of any calls *)




(** *** Which texts a call may write *)

(** Every element of [h] is in [h'] with the text it had. *)
Definition keeps_text (h h' : list element) : Prop :=
  ∀ i e, h !! i = Some e → ∃ e', h' !! i = Some e' ∧ text e' = text e.

(** A method that writes no text of the first [L] elements. *)
Definition fresh_writes {A} (L : nat) (m : M A) : Prop :=
  ∀ b, (L ≤ length (heap b))%nat →
    (∀ i e, (i < L)%nat → heap b !! i = Some e →
       ∃ e', heap (m b).2 !! i = Some e' ∧ text e' = text e)
    ∧ (L ≤ length (heap (m b).2))%nat.

Definition is_tuplet (c : call) : bool :=
  match c with
  | TupletNote _ _ _ _ => true
  | _ => false
  end.

(** ** The heap as an old part followed by the freshly made nodes

    Every method leaves the heap in the form [B ++ N]: [B] holds the nodes
    that existed at the call (some with more children or a new text), [N]
    the nodes the call has created so far. *)

Arguments heap_SubElement : simpl never.
Arguments heap_set_text : simpl never.
Arguments py_int : simpl never.

Section HeapShape.
Context (L : nat) (B N : list element).
Hypothesis HL : length B = L.

Lemma heap_SubElement_old p tg a :
  (p < L)%nat →
  heap_SubElement p tg a (B ++ N)
  = ((L + length N)%nat,
     alter (add_child (L + length N)) p B ++ (N ++ [Element tg a None []])).
Proof using HL.
  intros Hp. unfold heap_SubElement.
  rewrite length_app, HL, alter_app_l by lia.
  by rewrite <- app_assoc.
Qed.

Lemma heap_SubElement_new k tg a :
  heap_SubElement (L + k) tg a (B ++ N)
  = ((L + length N)%nat,
     B ++ (alter (add_child (L + length N)) k N ++ [Element tg a None []])).
Proof using HL.
  unfold heap_SubElement.
  rewrite length_app, HL, <- HL, alter_app_r.
  by rewrite <- app_assoc.
Qed.

Lemma heap_set_text_old p t :
  (p < L)%nat →
  heap_set_text p t (B ++ N) = alter (with_text t) p B ++ N.
Proof using HL.
  intros Hp. unfold heap_set_text. by rewrite alter_app_l by lia.
Qed.

Lemma heap_set_text_new k t :
  heap_set_text (L + k) t (B ++ N) = B ++ alter (with_text t) k N.
Proof using HL.
  unfold heap_set_text. by rewrite <- HL, alter_app_r.
Qed.

Lemma lookup_old p :
  (p < L)%nat → (B ++ N) !! p = B !! p.
Proof using HL. intros Hp. apply lookup_app_l. lia. Qed.

Lemma lookup_new k :
  (B ++ N) !! (L + k)%nat = N !! k.
Proof using HL.
  rewrite lookup_app_r by lia. f_equal. lia.
Qed.
End HeapShape.

Lemma heap_SubElement_start h p tg a :
  (p < length h)%nat →
  heap_SubElement p tg a h
  = ((length h + 0)%nat,
     alter (add_child (length h + 0)) p h ++ [Element tg a None []]).
Proof.
  intros Hp. rewrite <- (app_nil_r h) at 1.
  by rewrite (heap_SubElement_old (length h)).
Qed.

Lemma heap_set_text_start h p t :
  (p < length h)%nat →
  heap_set_text p t h = alter (with_text t) p h ++ [].
Proof. by rewrite app_nil_r. Qed.

(** One primitive of the method under evaluation, on a heap [B ++ N] whose
    old part has the length of [h]. *)
Ltac heap_side h := rewrite ?length_alter; first [reflexivity | assumption | lia].
Ltac heap_step h :=
  first
    [ rewrite (heap_SubElement_new (length h)) by heap_side h
    | rewrite (heap_set_text_new (length h)) by heap_side h
    | rewrite (heap_SubElement_old (length h)) by heap_side h
    | rewrite (heap_set_text_old (length h)) by heap_side h
    | rewrite (heap_SubElement_start h) by heap_side h
    | rewrite (heap_set_text_start h) by heap_side h ];
  cbn.
Ltac heap_run h := cbn; repeat heap_step h.


(** The heap projections of a builder after the setters. *)
Ltac unfold_monad :=
  unfold bind, ret, raise, lift, get, getattr, setattr, SubElement, set_text,
    set_heap, set_part_count, set_current_part, set_bar_nr, set_current_bar,
    set_current_note, set_duration, set_current_notation, set_bar_attr.

(** ** What each method does to a builder *)

Section MethodSpecs.
Context (b : create_musicXML).
Local Abbreviation L := (length (heap b)).


Lemma create_measure_spec cp nr :
  current_part b = Some cp → bar_nr b = Some nr → (cp < L)%nat →
  create_measure b
  = (Ok tt,
     Builder
       (alter (add_child (L + 0)) cp (heap b)
        ++ [Element "measure" [("number", pretty nr)]%string None []])
       (root b) (partlist b) (part_count b) (Some cp) (Some (nr + 1))
       (Some (L + 0)%nat) (current_note b) (duration b) (current_notation b)
       (bar_attr b)).
Proof.
  destruct b as [h r pl pc cp' bn cb cn d nt ba]; simpl.
  intros -> -> Hcp.
  unfold create_measure. unfold_monad. heap_run h. reflexivity.
Qed.
End MethodSpecs.

(** ** The heap stays a forest *)

Lemma subtree_mono f f' h i t :
  (f ≤ f')%nat → subtree f h i = Some t → subtree f' h i = Some t.
Proof.
  revert f' i t. induction f as [|f IH]; intros f' i t Hle Hs; [done|].
  destruct f' as [|f']; [lia|]. simpl in *.
  destruct (h !! i) as [e|]; [|done].
  destruct (mapM (subtree f h) (children e)) as [kids|] eqn:Hk; [|done].
  apply mapM_Some in Hk.
  assert (mapM (subtree f' h) (children e) = Some kids) as ->; [|done].
  apply mapM_Some. eapply Forall2_impl; [exact Hk|].
  intros c k Hc. apply IH; [lia|done].
Qed.

Lemma to_tree_of_subtree f h i t :
  (f ≤ length h)%nat → subtree f h i = Some t → to_tree h i = Some t.
Proof. intros. by eapply subtree_mono. Qed.







(** *** Methods keep an invariant of the builder *)

Section Preserves.
Context (I : create_musicXML → Prop).

Lemma preserves_ret {A} (a : A) : preserves I (ret a).
Proof. by intros b. Qed.

Lemma preserves_raise {A} e : preserves I (@raise A e).
Proof. by intros b. Qed.

Lemma preserves_lift {A} (r : result A) : preserves I (lift r).
Proof. by intros b. Qed.

Lemma preserves_get {A} (f : create_musicXML → A) : preserves I (get f).
Proof. by intros b. Qed.

Lemma preserves_getattr {A} (f : create_musicXML → option A) :
  preserves I (getattr f).
Proof. intros b Hb. unfold getattr. by destruct (f b). Qed.

Lemma preserves_bind {A B} (m : M A) (k : A → M B) :
  preserves I m → (∀ a, preserves I (k a)) → preserves I (bind m k).
Proof.
  intros Hm Hk b Hb. unfold bind. specialize (Hm b Hb).
  destruct (m b) as [[a|e] b']; simpl in *; [by apply Hk|done].
Qed.

Lemma preserves_if {A} (c : bool) (m1 m2 : M A) :
  preserves I m1 → preserves I m2 → preserves I (if c then m1 else m2).
Proof. by destruct c. Qed.
End Preserves.








(** ** Notes, tuplets and bar attributes *)

Arguments py_mul : simpl never.
Arguments py_div : simpl never.

Ltac eval_step h :=
  first
    [ heap_step h
    | match goal with
      | H : ?x = Ok _ |- context [?x] => rewrite H; cbn
      | H : ?x = Raise _ |- context [?x] => rewrite H; cbn
      | H : ?x = true |- context [?x] => rewrite H; cbn
      | H : ?x = false |- context [?x] => rewrite H; cbn
      end ].
Ltac eval_run h := unfold_monad; cbn; repeat eval_step h.

(** The tree under a node that the call has made, of depth at most [n]. *)
Ltac tree_run h n :=
  apply (to_tree_of_subtree n);
  [ rewrite length_app, ?length_alter; simpl; lia
  | cbn; repeat (rewrite (lookup_new (length h)) by heap_side h; cbn);
    reflexivity ].

Lemma lookup_alter_app {A} (g : A → A) p (h N : list A) i :
  (i < length h)%nat →
  (alter g p h ++ N) !! i = (if decide (p = i) then g else id) <$> h !! i.
Proof.
  intros Hi. rewrite lookup_app_l by (by rewrite length_alter).
  case_decide as Hp.
  - subst. apply list_lookup_alter_eq.
  - rewrite list_lookup_alter_ne by done. by destruct (h !! i).
Qed.

Lemma node_text_add_child c p h i :
  node_text (alter (add_child c) p h) i = node_text h i.
Proof.
  unfold node_text. destruct (decide (p = i)) as [->|Hne].
  - rewrite list_lookup_alter_eq. by destruct (h !! i).
  - by rewrite list_lookup_alter_ne.
Qed.

Lemma node_text_with_text t h i :
  (i < length h)%nat → node_text (alter (with_text t) i h) i = Some t.
Proof.
  intros Hi. unfold node_text. rewrite list_lookup_alter_eq.
  by destruct (lookup_lt_is_Some_2 h i Hi) as [e ->].
Qed.

Lemma node_children_with_text t p h i :
  node_children (alter (with_text t) p h) i = node_children h i.
Proof.
  unfold node_children. destruct (decide (p = i)) as [->|Hne].
  - rewrite list_lookup_alter_eq. by destruct (h !! i).
  - by rewrite list_lookup_alter_ne.
Qed.

Lemma node_children_add_child c h i :
  node_children (alter (add_child c) i h) i = (.++ [c]) <$> node_children h i.
Proof.
  unfold node_children. rewrite list_lookup_alter_eq. by destruct (h !! i).
Qed.

Lemma node_text_app_old B N i :
  (i < length B)%nat → node_text (B ++ N) i = node_text B i.
Proof. intros. unfold node_text. by rewrite lookup_app_l. Qed.

Lemma node_children_app_old B N i :
  (i < length B)%nat → node_children (B ++ N) i = node_children B i.
Proof. intros. unfold node_children. by rewrite lookup_app_l. Qed.

Section NoteSpecs.
Context (b : create_musicXML).
Local Abbreviation L := (length (heap b)).


Section Tuplet.
Context (d cn : nat) (s0 s1 : string) (org_len divs d4 a dur : pyval)
  (n0 n1 len : Z).
Hypothesis Hd : duration b = Some d.
Hypothesis Hdlt : (d < L)%nat.
Hypothesis Hcn : current_note b = Some cn.
Hypothesis Hcnlt : (cn < L)%nat.
Hypothesis Hmul : py_mul divs 4 = Ok d4.
Hypothesis Hn1 : py_int (PyStr s1) = Ok n1.
Hypothesis Ha : py_mul d4 n1 = Ok a.
Hypothesis Hlen : py_int org_len = Ok len.
Hypothesis Hn0 : py_int (PyStr s0) = Ok n0.
Hypothesis Hdiv : py_div a (len * n0) = Ok dur.


End Tuplet.

End NoteSpecs.

(** ** Durations *)

Lemma py_div_int (z n : Z) : n ≠ 0 → py_div (PyInt z) n = Ok (PyInt (z / n)).
Proof. intros Hn. unfold py_div. by destruct (Z.eqb_spec n 0). Qed.


Lemma one_bar_cursor :
  current_bar one_bar = Some 9%nat ∧ (9 < length (heap one_bar))%nat.
Proof. split; [reflexivity|]. vm_compute. lia. Qed.







(** ** Bar attributes *)



(** ** Failures *)




Section FieldInvariant.
Context (I : create_musicXML → Prop).
Hypothesis I_heap : ∀ b h, I b → I (set_heap h b).

Lemma field_SubElement p tg a : preserves I (SubElement p tg a).
Proof using I_heap.
  intros b Hb. unfold SubElement.
  destruct (heap_SubElement p tg a (heap b)) as [n h]. by apply I_heap.
Qed.

Lemma field_set_text p v : preserves I (set_text p v).
Proof using I_heap.
  intros b Hb. destruct v; simpl; [|done|]; by apply I_heap.
Qed.

Lemma field_setattr {A} (set : A → create_musicXML → create_musicXML) a :
  (∀ b, I b → I (set a b)) → preserves I (setattr set a).
Proof. intros Hset b Hb. by apply Hset. Qed.
End FieldInvariant.

Ltac preserves_field :=
  repeat first
    [ apply preserves_bind; [|intros ?]
    | apply preserves_if
    | apply preserves_ret
    | apply preserves_raise
    | apply preserves_lift
    | apply preserves_get
    | apply preserves_getattr
    | apply field_SubElement; by intros [] ?
    | apply field_set_text; by intros [] ?
    | apply field_setattr; by intros [] ].

Lemma no_part_do_call c :
  makes_part c = false → preserves (λ b, current_part b = None) (do_call c).
Proof.
  destruct c; simpl; [done|intros _..].
  - unfold create_measure. preserves_field.
  - unfold new_note, create_note, add_pitch, add_div_duration,
      add_duration_type, add_accidental. preserves_field.
  - unfold tuplet_note, change_div_duration, add_time_modify, add_notations,
      add_tuplet_type. preserves_field.
    destruct ttype; preserves_field.
  - unfold new_bar_attr, create_bar_attr, add_divisions, add_key, add_time,
      add_clef. preserves_field.
  - unfold create_new_node. preserves_field.
Qed.

Lemma no_part_exec cs b :
  existsb makes_part cs = false → current_part b = None →
  current_part (exec cs b) = None.
Proof.
  revert b. induction cs as [|c cs IH]; intros b Hcs Hb; [done|].
  simpl in Hcs. apply orb_false_iff in Hcs as [Hc Hcs].
  simpl. apply IH; [done|]. by apply (no_part_do_call c Hc).
Qed.

(** C9: as long as no call has been [create_part], [create_measure] raises
    [AttributeError] where it reads [self.current_part], the error of the
    interpreter for a missing attribute, and changes nothing. *)
Theorem create_measure_without_part today cs :
  existsb makes_part cs = false →
  current_part (exec cs (__init__ today)) = None
  ∧ create_measure (exec cs (__init__ today))
    = (Raise AttributeError, exec cs (__init__ today)).
Proof.
  intros Hcs.
  assert (current_part (exec cs (__init__ today)) = None) as Hnone
    by (by apply no_part_exec).
  split; [done|]. unfold create_measure, bind, getattr. by rewrite Hnone.
Qed.

Lemma create_measure_without_part_witness :
  current_part
    (exec [CreateMeasure;
           NewNote (Some [PyStr "C"; PyInt 0; PyInt 4]) (PyInt 4)
             (PyStr "quarter") (PyInt 4)]
       (__init__ "2012-06-01")) = None
  ∧ create_measure
      (exec [CreateMeasure;
             NewNote (Some [PyStr "C"; PyInt 0; PyInt 4]) (PyInt 4)
               (PyStr "quarter") (PyInt 4)]
         (__init__ "2012-06-01"))
    = (Raise AttributeError,
       exec [CreateMeasure;
             NewNote (Some [PyStr "C"; PyInt 0; PyInt 4]) (PyInt 4)
               (PyStr "quarter") (PyInt 4)]
         (__init__ "2012-06-01")).
Proof.
  apply (create_measure_without_part "2012-06-01"
           [CreateMeasure;
            NewNote (Some [PyStr "C"; PyInt 0; PyInt 4]) (PyInt 4)
              (PyStr "quarter") (PyInt 4)]).
  reflexivity.
Defined.

(** ** The document *)




(** ** A part made while a measure is open *)




Ltac fields :=
  cbn [heap root partlist part_count current_part bar_nr current_bar
       current_note duration current_notation bar_attr].
Ltac length_side :=
  fields; rewrite ?length_app, ?length_alter; cbn [length Nat.add]; simpl; lia.



(** ** Parts and measures *)

(** ** Trees that a change of the heap leaves alone *)

Section Frame.
Context (h h' : list element) (p : nat) (tg : string).
Hypothesis Hext : ∀ j e, j ≠ p → h !! j = Some e → h' !! j = Some e.
Hypothesis Htag : ∀ ep, h !! p = Some ep → tag ep = tg.




End Frame.







(** *** The expected trees and their tags *)

Local Arguments String.eqb : simpl never.

















(** ** Cursors stay valid *)

Lemma node_tag_SubElement p tg a h i t :
  node_tag h i = Some t → node_tag (heap_SubElement p tg a h).2 i = Some t.
Proof.
  unfold node_tag, heap_SubElement. simpl. intros Hi.
  destruct (h !! i) as [e|] eqn:He; [|done].
  rewrite (lookup_alter_app _ _ _ _ _ (lookup_lt_Some _ _ _ He)), He.
  by case_decide.
Qed.

Lemma node_tag_SubElement_new p tg a h :
  node_tag (heap_SubElement p tg a h).2 (heap_SubElement p tg a h).1 = Some tg.
Proof.
  unfold node_tag, heap_SubElement. simpl.
  rewrite lookup_app_r by (by rewrite length_alter).
  by rewrite length_alter, Nat.sub_diag.
Qed.

Lemma node_tag_set_text p t h i :
  node_tag (heap_set_text p t h) i = node_tag h i.
Proof.
  unfold node_tag, heap_set_text. destruct (decide (p = i)) as [->|Hne].
  - rewrite list_lookup_alter_eq. by destruct (h !! i).
  - by rewrite list_lookup_alter_ne.
Qed.

Lemma cursors_ok_heap b h :
  (∀ i t, node_tag (heap b) i = Some t → node_tag h i = Some t) →
  cursors_ok b → cursors_ok (set_heap h b).
Proof.
  intros Hh (Hr & Hpl & Hcp & Hcb & Hcn & Hd & Hnt & Hba & Hnr).
  unfold cursors_ok, cursor_ok in *. simpl. repeat split; auto.
Qed.

Lemma cursors_ok_SubElement p tg a : preserves cursors_ok (SubElement p tg a).
Proof.
  intros b Hb. unfold SubElement.
  pose proof (node_tag_SubElement p tg a (heap b)) as Htag.
  destruct (heap_SubElement p tg a (heap b)) as [n h]. simpl in *.
  by apply cursors_ok_heap.
Qed.

Lemma cursors_ok_set_text p v : preserves cursors_ok (set_text p v).
Proof.
  intros b Hb. destruct v; simpl; [|done|];
    (apply cursors_ok_heap; [|done]; intros i t; by rewrite node_tag_set_text).
Qed.

(** [self.cursor = etree.SubElement(parent, tg)], then the rest. *)
Lemma cursors_ok_make {A} (set : nat → create_musicXML → create_musicXML)
    p tg a (rest : M A) :
  (∀ b n, cursors_ok b → node_tag (heap b) n = Some tg →
          cursors_ok (set n b)) →
  preserves cursors_ok rest →
  preserves cursors_ok
    (bind (SubElement p tg a) (λ n, bind (setattr set n) (λ _, rest))).
Proof.
  intros Hset Hrest b Hb. unfold bind, SubElement, setattr.
  pose proof (node_tag_SubElement p tg a (heap b)) as Htag.
  pose proof (node_tag_SubElement_new p tg a (heap b)) as Hnew.
  destruct (heap_SubElement p tg a (heap b)) as [n h]. simpl in *.
  apply Hrest, Hset; [by apply cursors_ok_heap|done].
Qed.

Lemma cursors_ok_make_last (set : nat → create_musicXML → create_musicXML)
    p tg a :
  (∀ b n, cursors_ok b → node_tag (heap b) n = Some tg →
          cursors_ok (set n b)) →
  preserves cursors_ok (bind (SubElement p tg a) (λ n, setattr set n)).
Proof.
  intros Hset b Hb. unfold bind, SubElement, setattr.
  pose proof (node_tag_SubElement p tg a (heap b)) as Htag.
  pose proof (node_tag_SubElement_new p tg a (heap b)) as Hnew.
  destruct (heap_SubElement p tg a (heap b)) as [n h]. simpl in *.
  apply Hset; [by apply cursors_ok_heap|done].
Qed.

Ltac cursor_set :=
  intros [] ? (? & ? & ? & ? & ? & ? & ? & ? & ?) ?;
  unfold cursors_ok, cursor_ok in *; simpl in *;
  repeat split; auto; intros; simplify_eq; auto.

Lemma cursors_ok_setattr_bar_nr n : preserves cursors_ok (setattr set_bar_nr n).
Proof.
  intros [] (? & ? & ? & ? & ? & ? & ? & ? & ?).
  unfold cursors_ok in *. simpl in *. repeat split; auto.
Qed.

Ltac preserves_cursors :=
  repeat
    lazymatch goal with
    | |- preserves _ (bind (SubElement _ _ _)
                        (λ n, bind (setattr _ n) _)) =>
        apply cursors_ok_make; [cursor_set|]
    | |- preserves _ (bind (SubElement _ _ _) (λ n, setattr _ n)) =>
        apply cursors_ok_make_last; cursor_set
    | |- preserves _ (bind _ _) => apply preserves_bind; [|intros ?]
    | |- preserves _ (if _ then _ else _) => apply preserves_if
    | |- preserves _ (ret _) => apply preserves_ret
    | |- preserves _ (raise _) => apply preserves_raise
    | |- preserves _ (lift _) => apply preserves_lift
    | |- preserves _ (get _) => apply preserves_get
    | |- preserves _ (getattr _) => apply preserves_getattr
    | |- preserves _ (SubElement _ _ _) => apply cursors_ok_SubElement
    | |- preserves _ (set_text _ _) => apply cursors_ok_set_text
    | |- preserves _ (setattr set_bar_nr _) => apply cursors_ok_setattr_bar_nr
    end.

(** The end of [create_part]: the part element, then the three fields. *)
Lemma cursors_ok_part_tail r a :
  preserves cursors_ok
    (bind (SubElement r "part" a)
       (λ p, bind (setattr set_current_part p)
               (λ _, bind (get part_count)
                       (λ n, bind (setattr set_part_count (n + 1))
                               (λ _, setattr set_bar_nr 1))))).
Proof.
  intros b Hb. unfold bind, SubElement, setattr, get.
  pose proof (node_tag_SubElement r "part" a (heap b)) as Htag.
  pose proof (node_tag_SubElement_new r "part" a (heap b)) as Hnew.
  destruct (heap_SubElement r "part" a (heap b)) as [n h].
  destruct b as [h0 r0 pl pc cp bn cb cn d nt ba].
  destruct Hb as (? & ? & ? & ? & ? & ? & ? & ? & ?).
  unfold cursors_ok, cursor_ok in *. cbn in *.
  repeat split; eauto. intros x [= <-]. done.
Qed.

Lemma cursors_ok_create_part name : preserves cursors_ok (create_part name).
Proof.
  unfold create_part.
  repeat
    lazymatch goal with
    | |- preserves _ (bind (SubElement _ "part" _) _) =>
        apply cursors_ok_part_tail
    | |- preserves _ (bind _ _) => apply preserves_bind; [|intros ?]
    | |- preserves _ (get _) => apply preserves_get
    | |- preserves _ (SubElement _ _ _) => apply cursors_ok_SubElement
    | |- preserves _ (set_text _ _) => apply cursors_ok_set_text
    end.
Qed.

Lemma cursors_ok_do_call c : preserves cursors_ok (do_call c).
Proof.
  destruct c; simpl.
  - apply cursors_ok_create_part.
  - unfold create_measure. preserves_cursors.
  - unfold new_note, create_note, add_pitch, add_div_duration,
      add_duration_type, add_accidental. preserves_cursors.
  - unfold tuplet_note, change_div_duration, add_time_modify, add_notations,
      add_tuplet_type. preserves_cursors.
    destruct ttype; preserves_cursors.
  - unfold new_bar_attr, create_bar_attr, add_divisions, add_key, add_time,
      add_clef. preserves_cursors.
  - unfold create_new_node. preserves_cursors.
Qed.

Lemma cursors_ok_init today : cursors_ok (__init__ today).
Proof. repeat split; try done; by intros [??]. Qed.

Lemma cursors_ok_exec cs b : cursors_ok b → cursors_ok (exec cs b).
Proof.
  revert b. induction cs as [|c cs IH]; intros b Hb; [done|].
  simpl. apply IH. by apply cursors_ok_do_call.
Qed.

Lemma cursor_ok_lt h c tg x :
  cursor_ok h c tg → c = Some x → (x < length h)%nat.
Proof.
  intros Hc Hx. specialize (Hc x Hx). unfold node_tag in Hc.
  destruct (h !! x) as [e|] eqn:He; [|done]. by eapply lookup_lt_Some.
Qed.

Lemma cursors_ok_reachable today cs : cursors_ok (exec cs (__init__ today)).
Proof. apply cursors_ok_exec, cursors_ok_init. Qed.

(** X1: whatever calls a client has made, each cursor that is set refers
    to an element of the heap that has the tag of its kind, [root] and
    [partlist] are the [score-partwise] and [part-list] elements, and
    [bar_nr] is set whenever [current_part] is. *)
Theorem cursors_typed today cs : cursors_ok (exec cs (__init__ today)).
Proof. apply cursors_ok_reachable. Qed.

(** X2: [create_measure] returns exactly when a part is current, and then
    it appends one measure to that part, numbered by [bar_nr], and makes it
    the current bar. *)
Theorem create_measure_returns_iff today cs :
  (is_Some (current_part (exec cs (__init__ today)))
   ↔ ∃ b', create_measure (exec cs (__init__ today)) = (Ok tt, b'))
  ∧ (∀ cp, current_part (exec cs (__init__ today)) = Some cp →
     ∃ b' nr bar,
       create_measure (exec cs (__init__ today)) = (Ok tt, b')
       ∧ bar_nr (exec cs (__init__ today)) = Some nr
       ∧ bar_nr b' = Some (nr + 1)
       ∧ current_bar b' = Some bar
       ∧ to_tree (heap b') bar = Some (measure_tree nr [])
       ∧ node_children (heap b') cp
         = (.++ [bar]) <$> node_children (heap (exec cs (__init__ today))) cp).
Proof.
  pose proof (cursors_ok_reachable today cs) as Hok.
  set (b := exec cs (__init__ today)) in *.
  assert (∀ cp, current_part b = Some cp →
            ∃ b' nr bar,
              create_measure b = (Ok tt, b')
              ∧ bar_nr b = Some nr
              ∧ bar_nr b' = Some (nr + 1)
              ∧ current_bar b' = Some bar
              ∧ to_tree (heap b') bar = Some (measure_tree nr [])
              ∧ node_children (heap b') cp
                = (.++ [bar]) <$> node_children (heap b) cp) as Hret.
  { intros cp Hcp.
    destruct Hok as (_ & _ & Hpart & _ & _ & _ & _ & _ & Hnr).
    destruct Hnr as [nr Hnr]; [by rewrite Hcp|].
    pose proof (cursor_ok_lt _ _ _ _ Hpart Hcp) as Hlt.
    eexists _, nr, _. split; [by apply create_measure_spec|].
    split; [done|]. split; [done|]. split; [done|]. simpl. split.
    - apply (to_tree_of_subtree 1).
      + rewrite length_app, length_alter. simpl. lia.
      + simpl. rewrite (lookup_new (length (heap b)))
          by (by rewrite length_alter).
        reflexivity.
    - rewrite node_children_app_old by (by rewrite length_alter).
      apply node_children_add_child. }
  split; [|done]. split.
  - intros [cp Hcp]. destruct (Hret cp Hcp) as (b' & _ & _ & Hrun & _). eauto.
  - intros [b' Hrun]. unfold create_measure, bind, getattr in Hrun.
    by destruct (current_part b).
Qed.



(** ** Calls only append *)

Lemma extends_refl h : extends h h.
Proof. intros i e He. by exists e. Qed.

Lemma extends_trans h1 h2 h3 : extends h1 h2 → extends h2 h3 → extends h1 h3.
Proof.
  intros H12 H23 i e He.
  destruct (H12 i e He) as (e2 & He2 & Ht2 & Ha2 & Hc2).
  destruct (H23 i e2 He2) as (e3 & He3 & Ht3 & Ha3 & Hc3).
  exists e3. repeat split; [done|congruence|congruence|by etrans].
Qed.

Lemma extends_SubElement p tg a h : extends h (heap_SubElement p tg a h).2.
Proof.
  intros i e He. unfold heap_SubElement. simpl.
  rewrite (lookup_alter_app _ _ _ _ _ (lookup_lt_Some _ _ _ He)), He.
  case_decide; simpl; eexists; (split; [done|]); repeat split; try done.
  by apply prefix_app_r.
Qed.

Lemma extends_set_text p t h : extends h (heap_set_text p t h).
Proof.
  intros i e He. unfold heap_set_text. destruct (decide (p = i)) as [->|Hne].
  - rewrite list_lookup_alter_eq, He. simpl. by eexists.
  - rewrite list_lookup_alter_ne by done. by exists e.
Qed.

Lemma builder_extends_refl b : builder_extends b b.
Proof. split; [apply extends_refl|]. repeat split; lia. Qed.

Lemma builder_extends_trans b1 b2 b3 :
  builder_extends b1 b2 → builder_extends b2 b3 → builder_extends b1 b3.
Proof.
  intros (H12 & Hr12 & Hp12 & Hc12) (H23 & Hr23 & Hp23 & Hc23).
  split; [by eapply extends_trans|]. repeat split; [congruence..|lia].
Qed.

Lemma grows_ret {A} (a : A) : grows (ret a).
Proof. intros b. apply builder_extends_refl. Qed.

Lemma grows_raise {A} e : grows (@raise A e).
Proof. intros b. apply builder_extends_refl. Qed.

Lemma grows_lift {A} (r : result A) : grows (lift r).
Proof. intros b. apply builder_extends_refl. Qed.

Lemma grows_get {A} (f : create_musicXML → A) : grows (get f).
Proof. intros b. apply builder_extends_refl. Qed.

Lemma grows_getattr {A} (f : create_musicXML → option A) : grows (getattr f).
Proof.
  intros b. unfold getattr. destruct (f b); apply builder_extends_refl.
Qed.

Lemma grows_bind {A B} (m : M A) (k : A → M B) :
  grows m → (∀ a, grows (k a)) → grows (bind m k).
Proof.
  intros Hm Hk b. unfold bind. specialize (Hm b).
  destruct (m b) as [[a|e] b']; simpl in *; [|done].
  eapply builder_extends_trans; [exact Hm|apply Hk].
Qed.

Lemma grows_if {A} (c : bool) (m1 m2 : M A) :
  grows m1 → grows m2 → grows (if c then m1 else m2).
Proof. by destruct c. Qed.

Lemma grows_SubElement p tg a : grows (SubElement p tg a).
Proof.
  intros b. unfold SubElement.
  pose proof (extends_SubElement p tg a (heap b)) as Hext.
  destruct (heap_SubElement p tg a (heap b)) as [n h]. simpl in *.
  split; [done|]. repeat split; simpl; lia.
Qed.

Lemma grows_set_text p v : grows (set_text p v).
Proof.
  intros b. destruct v; simpl; [|apply builder_extends_refl|];
    (split; [apply extends_set_text|]; repeat split; simpl; lia).
Qed.

Lemma grows_setattr {A} (set : A → create_musicXML → create_musicXML) a :
  (∀ b, heap (set a b) = heap b ∧ root (set a b) = root b
        ∧ partlist (set a b) = partlist b
        ∧ part_count b ≤ part_count (set a b)) →
  grows (setattr set a).
Proof.
  intros Hset b. unfold setattr. simpl.
  destruct (Hset b) as (Hh & Hr & Hp & Hc).
  split; [rewrite Hh; apply extends_refl|]. by repeat split.
Qed.

Ltac grows_method :=
  repeat
    lazymatch goal with
    | |- grows (bind _ _) => apply grows_bind; [|intros ?]
    | |- grows (if _ then _ else _) => apply grows_if
    | |- grows (ret _) => apply grows_ret
    | |- grows (raise _) => apply grows_raise
    | |- grows (lift _) => apply grows_lift
    | |- grows (get _) => apply grows_get
    | |- grows (getattr _) => apply grows_getattr
    | |- grows (SubElement _ _ _) => apply grows_SubElement
    | |- grows (set_text _ _) => apply grows_set_text
    | |- grows (setattr _ _) =>
        apply grows_setattr; intros []; simpl; repeat split; lia
    end.

Lemma grows_create_part name : grows (create_part name).
Proof.
  unfold create_part.
  repeat
    lazymatch goal with
    | |- grows (bind (get part_count) (λ n, bind (setattr set_part_count _) _))
      => intros b; unfold bind, get, setattr; simpl;
         split; [apply extends_refl|]; repeat split; simpl; lia
    | |- grows (bind _ _) => apply grows_bind; [|intros ?]
    | |- grows (get _) => apply grows_get
    | |- grows (SubElement _ _ _) => apply grows_SubElement
    | |- grows (set_text _ _) => apply grows_set_text
    | |- grows (setattr _ _) =>
        apply grows_setattr; intros []; simpl; repeat split; lia
    end.
Qed.

Lemma grows_do_call c : grows (do_call c).
Proof.
  destruct c; simpl.
  - apply grows_create_part.
  - unfold create_measure. grows_method.
  - unfold new_note, create_note, add_pitch, add_div_duration,
      add_duration_type, add_accidental. grows_method.
  - unfold tuplet_note, change_div_duration, add_time_modify, add_notations,
      add_tuplet_type. grows_method.
    destruct ttype; grows_method.
  - unfold new_bar_attr, create_bar_attr, add_divisions, add_key, add_time,
      add_clef. grows_method.
  - unfold create_new_node. grows_method.
Qed.

(** X4: the builder only appends. Across any calls, returned or raised,
    on any builder: no element is removed, none changes its tag or its
    attributes, the children of an element are only followed by new ones;
    [root] and [partlist] stay the same objects and [part_count] never
    decreases. *)
Theorem calls_only_append cs b : builder_extends b (exec cs b).
Proof.
  revert b. induction cs as [|c cs IH]; intros b; simpl.
  - apply builder_extends_refl.
  - eapply builder_extends_trans; [apply grows_do_call|apply IH].
Qed.

Lemma layout_fields_do_call c b :
  is_layout c = false →
  preserves (λ b', layout_fields b' = layout_fields b) (do_call c).
Proof.
  assert (∀ b0 h, layout_fields b0 = layout_fields b →
            layout_fields (set_heap h b0) = layout_fields b) as Hheap
    by (by intros [] ?).
  destruct c; simpl; try done; intros _.
  - unfold new_note, create_note, add_pitch, add_div_duration,
      add_duration_type, add_accidental. preserves_field.
  - unfold tuplet_note, change_div_duration, add_time_modify, add_notations,
      add_tuplet_type. preserves_field.
    destruct ttype; preserves_field.
  - unfold new_bar_attr, create_bar_attr, add_divisions, add_key, add_time,
      add_clef. preserves_field.
  - unfold create_new_node. preserves_field.
Qed.

(** X5: notes, tuplets, bar attributes and custom nodes leave the layout
    alone: whether the call returns or raises, [part_count],
    [current_part], [bar_nr] and [current_bar] are what they were. *)
Theorem notes_keep_layout c b :
  is_layout c = false →
  layout_fields (do_call c b).2 = layout_fields b.
Proof. intros Hc. by apply (layout_fields_do_call c b Hc b). Qed.

Lemma notes_keep_layout_witness :
  layout_fields
    (do_call (NewNote (Some [PyStr "C"; PyInt 1; PyInt 4]) (PyStr "0")
                (PyStr "quarter") (PyInt 4)) one_note).2
  = layout_fields one_note.
Proof.
  apply (notes_keep_layout
           (NewNote (Some [PyStr "C"; PyInt 1; PyInt 4]) (PyStr "0")
              (PyStr "quarter") (PyInt 4)) one_note).
  reflexivity.
Defined.

(** ** What a failed call leaves behind *)





Section RaisesOnly.
Context (P : exn → Prop).












End RaisesOnly.





(** ** A note and its tuplet *)



(** ** Rounding, custom nodes, exceptions *)






(** ** Numbers written as strings *)

Lemma digit_of_pretty_N_char (d : N) :
  (d < 10)%N → digit_of (pretty_N_char d) = Some (Z.of_N d).
Proof.
  intros Hd.
  assert (d = 0 ∨ d = 1 ∨ d = 2 ∨ d = 3 ∨ d = 4 ∨ d = 5 ∨ d = 6 ∨ d = 7
          ∨ d = 8 ∨ d = 9)%N as Hcases by lia.
  repeat (destruct Hcases as [->|Hcases]; [reflexivity|]).
  by subst.
Qed.

Lemma parse_digits_pretty_N_go (x : N) :
  ∀ s, parse_digits 0 (pretty_N_go x s) = parse_digits (Z.of_N x) s.
Proof.
  induction (N.lt_wf_0 x) as [x _ IH]. intros s.
  destruct (decide (x = 0)%N) as [->|Hx]; [by rewrite pretty_N_go_0|].
  rewrite pretty_N_go_step by lia.
  rewrite IH by (apply N.div_lt; lia). simpl.
  rewrite digit_of_pretty_N_char by (apply N.mod_lt; lia).
  f_equal. pose proof (N.div_mod x 10). lia.
Qed.

Lemma pretty_N_go_head (x : N) :
  ∀ s, (0 < x)%N →
    ∃ c rest d, pretty_N_go x s = String c rest ∧ digit_of c = Some d.
Proof.
  induction (N.lt_wf_0 x) as [x _ IH]. intros s Hx.
  rewrite pretty_N_go_step by done.
  destruct (decide (x `div` 10 = 0)%N) as [->|Hq].
  - rewrite pretty_N_go_0. eexists _, _, _. split; [done|].
    apply digit_of_pretty_N_char, N.mod_lt. lia.
  - apply IH; [apply N.div_lt; lia|by apply N.neq_0_lt_0].
Qed.

Lemma parse_int_digit c rest d :
  digit_of c = Some d →
  parse_int (String c rest) = parse_digits 0 (String c rest).
Proof.
  intros Hd. unfold parse_int, parse_unsigned.
  destruct c as [[] [] [] [] [] [] [] []]; try discriminate Hd; reflexivity.
Qed.

Lemma parse_unsigned_digit c rest d :
  digit_of c = Some d →
  parse_unsigned (String c rest) = parse_digits 0 (String c rest).
Proof. intros Hd. unfold parse_unsigned. by rewrite Hd. Qed.

Lemma parse_int_pretty (z : Z) : parse_int (pretty z) = Some z.
Proof.
  destruct z as [|p|p]; [reflexivity| |].
  - change (pretty (Z.pos p)) with (pretty_N_go (N.pos p) EmptyString).
    destruct (pretty_N_go_head (N.pos p) EmptyString)
      as (c & rest & d & Heq & Hd); [lia|].
    rewrite Heq, (parse_int_digit _ _ _ Hd), <- Heq.
    by rewrite parse_digits_pretty_N_go.
  - change (pretty (Z.neg p))
      with (String "-" (pretty_N_go (N.pos p) EmptyString)).
    destruct (pretty_N_go_head (N.pos p) EmptyString)
      as (c & rest & d & Heq & Hd); [lia|].
    change (parse_int (String "-" (pretty_N_go (N.pos p) EmptyString)))
      with (Z.opp <$> parse_unsigned (pretty_N_go (N.pos p) EmptyString)).
    rewrite Heq, (parse_unsigned_digit _ _ _ Hd), <- Heq.
    by rewrite parse_digits_pretty_N_go.
Qed.

(** X12: [int(str(n))] is [n], so a length may be given as the number or
    as its decimal string: [new_note] and [tuplet_note] do the same with
    both. *)
Theorem decimal_string_as_number (n : Z) :
  py_int (PyStr (py_str (PyInt n))) = Ok n
  ∧ (∀ pitch durtype divs b,
       new_note pitch (PyStr (py_str (PyInt n))) durtype divs b
       = new_note pitch (PyInt n) durtype divs b)
  ∧ (∀ fraction ttype divs b,
       tuplet_note fraction (PyStr (py_str (PyInt n))) ttype divs b
       = tuplet_note fraction (PyInt n) ttype divs b).
Proof.
  assert (py_int (PyStr (py_str (PyInt n))) = py_int (PyInt n)) as Hint.
  { unfold py_int, py_str. by rewrite parse_int_pretty. }
  split; [by rewrite Hint|]. split.
  - intros. unfold new_note. by rewrite Hint.
  - intros. unfold tuplet_note. by rewrite Hint.
Qed.

(** ** The counters under any calls *)






(** ** After a call that raised *)



(** X15: the numbers of a tuplet ratio have to be strings. With integers
    [tuplet_note] computes the duration, writes it, makes the time
    modification and its first child and then raises [TypeError], as
    lxml refuses an integer for a text: the note keeps the new duration
    and a time modification with an empty actual-notes element only. *)
Theorem tuplet_note_integer_ratio b d cn org_len ttype
    (divs len n0 n1 : Z) :
  duration b = Some d → (d < length (heap b))%nat →
  current_note b = Some cn → (cn < length (heap b))%nat →
  py_int org_len = Ok len → len * n0 ≠ 0 →
  ∃ b',
    tuplet_note (Some [PyInt n0; PyInt n1]) org_len ttype (PyInt divs) b
    = (Raise TypeError, b')
    ∧ node_text (heap b') d
      = Some (Some (py_str (PyInt (divs * 4 * n1 / (len * n0)))))
    ∧ to_tree (heap b') (length (heap b) + 0)
      = Some (Node "time-modification" [] None
                [Node "actual-notes" [] None []])
    ∧ node_children (heap b') cn
      = (.++ [(length (heap b) + 0)%nat]) <$> node_children (heap b) cn.
Proof.
  intros Hd Hdlt Hcn Hcnlt Hlen Hne.
  assert (py_mul (PyInt divs) 4 = Ok (PyInt (divs * 4))) as Hmul by done.
  assert (py_mul (PyInt (divs * 4)) n1 = Ok (PyInt (divs * 4 * n1)))
    as Hmul2 by done.
  assert (py_div (PyInt (divs * 4 * n1)) (len * n0)
          = Ok (PyInt (divs * 4 * n1 / (len * n0)))) as Hdiv
    by (by apply py_div_int).
  assert (py_int (PyInt n0) = Ok n0) as Hn0 by done.
  assert (py_int (PyInt n1) = Ok n1) as Hn1 by done.
  destruct b as [h r pl pc cp bn cb cn' d' nt ba];
    simpl in Hd, Hdlt, Hcn, Hcnlt |- *.
  subst cn' d'.
  unfold tuplet_note, change_div_duration, add_time_modify.
  eexists; split; [eval_run h; reflexivity|]; simpl.
  split; [|split; [tree_run h 2%nat|]].
  - rewrite node_text_app_old by (by rewrite !length_alter).
    by rewrite node_text_add_child, node_text_with_text.
  - rewrite node_children_app_old by (by rewrite !length_alter).
    by rewrite node_children_add_child, node_children_with_text.
Qed.

Lemma tuplet_note_integer_ratio_witness :
  ∃ b',
    tuplet_note (Some [PyInt 3; PyInt 2]) (PyStr "8") (PyStr "start")
      (PyInt 4) one_note
    = (Raise TypeError, b')
    ∧ node_text (heap b') 14
      = Some (Some (py_str (PyInt (4 * 4 * 2 / (8 * 3)))))
    ∧ to_tree (heap b') (length (heap one_note) + 0)
      = Some (Node "time-modification" [] None
                [Node "actual-notes" [] None []])
    ∧ node_children (heap b') 10
      = (.++ [(length (heap one_note) + 0)%nat])
        <$> node_children (heap one_note) 10.
Proof.
  apply (tuplet_note_integer_ratio one_note 14%nat 10%nat (PyStr "8")
           (PyStr "start") 4 8 3 2);
    [reflexivity|vm_compute; lia|reflexivity|vm_compute; lia|reflexivity|lia].
Defined.

(** ** Texts are written once *)

Lemma keeps_text_refl h : keeps_text h h.
Proof. intros i e He. by exists e. Qed.

Lemma keeps_text_trans h1 h2 h3 :
  keeps_text h1 h2 → keeps_text h2 h3 → keeps_text h1 h3.
Proof.
  intros H12 H23 i e He.
  destruct (H12 i e He) as (e2 & He2 & Ht2).
  destruct (H23 i e2 He2) as (e3 & He3 & Ht3).
  exists e3. split; [done|congruence].
Qed.

Section FreshWrites.
Context (L : nat).

Lemma fresh_same {A} (m : M A) :
  (∀ b, heap (m b).2 = heap b) → fresh_writes L m.
Proof.
  intros Hm b Hb. rewrite Hm. split; [|done]. intros i e _ He. by exists e.
Qed.

Lemma fresh_ret {A} (a : A) : fresh_writes L (ret a).
Proof. by apply fresh_same. Qed.

Lemma fresh_raise {A} e : fresh_writes L (@raise A e).
Proof. by apply fresh_same. Qed.

Lemma fresh_lift {A} (r : result A) : fresh_writes L (lift r).
Proof. by apply fresh_same. Qed.

Lemma fresh_get {A} (f : create_musicXML → A) : fresh_writes L (get f).
Proof. by apply fresh_same. Qed.

Lemma fresh_getattr {A} (f : create_musicXML → option A) :
  fresh_writes L (getattr f).
Proof. apply fresh_same. intros b. unfold getattr. by destruct (f b). Qed.

Lemma fresh_setattr {A} (set : A → create_musicXML → create_musicXML) a :
  (∀ b, heap (set a b) = heap b) → fresh_writes L (setattr set a).
Proof. intros Hset. by apply fresh_same. Qed.

Lemma fresh_bind {A B} (m : M A) (k : A → M B) :
  fresh_writes L m → (∀ a, fresh_writes L (k a)) → fresh_writes L (bind m k).
Proof.
  intros Hm Hk b Hb. unfold bind.
  destruct (Hm b Hb) as [Hold Hlen].
  destruct (m b) as [[a|e] b1]; simpl in Hold, Hlen; [|done].
  destruct (Hk a b1 Hlen) as [Hold' Hlen']. split; [|done].
  intros i e Hi He. destruct (Hold i e Hi He) as (e1 & He1 & Ht1).
  destruct (Hold' i e1 Hi He1) as (e2 & He2 & Ht2).
  exists e2. split; [done|congruence].
Qed.

Lemma fresh_if {A} (c : bool) (m1 m2 : M A) :
  fresh_writes L m1 → fresh_writes L m2 →
  fresh_writes L (if c then m1 else m2).
Proof. by destruct c. Qed.

(** The element that [SubElement] returns is not one of the first [L]. *)
Lemma fresh_SubElement {B} p tg a (k : nat → M B) :
  (∀ n, (L ≤ n)%nat → fresh_writes L (k n)) →
  fresh_writes L (bind (SubElement p tg a) k).
Proof.
  intros Hk b Hb. unfold bind, SubElement, heap_SubElement.
  destruct b as [h r pl pc cp bn cb cn d nt ba]. simpl in Hb |- *.
  destruct (Hk (length h) Hb
              (Builder (alter (add_child (length h)) p h
                        ++ [Element tg a None []])
                 r pl pc cp bn cb cn d nt ba)) as [Hold Hlen].
  { simpl. rewrite length_app, length_alter. lia. }
  split; [|done]. intros i e Hi He.
  destruct (Hold i (if decide (p = i) then add_child (length h) e else e) Hi)
    as (e' & He' & Ht').
  { simpl. rewrite lookup_alter_app by lia. rewrite He. simpl.
    by case_decide. }
  exists e'. split; [done|]. rewrite Ht'. by case_decide.
Qed.

Lemma fresh_SubElement_last p tg a : fresh_writes L (SubElement p tg a).
Proof.
  intros b Hb. unfold SubElement, heap_SubElement.
  destruct b as [h r pl pc cp bn cb cn d nt ba]. simpl in Hb |- *.
  split; [|rewrite length_app, length_alter; lia].
  intros i e Hi He. rewrite lookup_alter_app by lia. rewrite He. simpl.
  case_decide; by eexists.
Qed.

Lemma fresh_set_text n v : (L ≤ n)%nat → fresh_writes L (set_text n v).
Proof.
  intros Hn b Hb.
  assert (∀ t, (∀ i e, (i < L)%nat → heap b !! i = Some e →
                  ∃ e', heap_set_text n t (heap b) !! i = Some e'
                        ∧ text e' = text e)
               ∧ (L ≤ length (heap_set_text n t (heap b)))%nat) as Hset.
  { intros t. unfold heap_set_text. rewrite length_alter. split; [|done].
    intros i e Hi He. rewrite list_lookup_alter_ne by lia. by exists e. }
  destruct b as [h r pl pc cp bn cb cn d nt ba].
  destruct v; simpl in *; try apply Hset.
  split; [|done]. intros i e _ He. by exists e.
Qed.

(** [self.duration = d] and then [self.duration] is [d]. *)
Lemma fresh_duration {B} d (k : nat → M B) :
  fresh_writes L (k d) →
  fresh_writes L (bind (setattr set_duration d)
                    (λ _, bind (getattr duration) k)).
Proof.
  intros Hk b Hb. destruct b as [h r pl pc cp bn cb cn d' nt ba].
  apply (Hk (Builder h r pl pc cp bn cb cn (Some d) nt ba) Hb).
Qed.
End FreshWrites.

Ltac fresh_method :=
  repeat
    lazymatch goal with
    | |- fresh_writes _ (bind (SubElement _ _ _) _) =>
        apply fresh_SubElement; intros ? ?
    | |- fresh_writes _ (bind (setattr set_duration _)
                           (λ _, bind (getattr duration) _)) =>
        apply fresh_duration
    | |- fresh_writes _ (bind _ _) => apply fresh_bind; [|intros ?]
    | |- fresh_writes _ (if _ then _ else _) => apply fresh_if
    | |- fresh_writes _ (ret _) => apply fresh_ret
    | |- fresh_writes _ (raise _) => apply fresh_raise
    | |- fresh_writes _ (lift _) => apply fresh_lift
    | |- fresh_writes _ (get _) => apply fresh_get
    | |- fresh_writes _ (getattr _) => apply fresh_getattr
    | |- fresh_writes _ (SubElement _ _ _) => apply fresh_SubElement_last
    | |- fresh_writes _ (set_text _ _) => apply fresh_set_text; assumption
    | |- fresh_writes _ (setattr _ _) =>
        apply fresh_setattr; by intros []
    end.

Lemma fresh_do_call L c : is_tuplet c = false → fresh_writes L (do_call c).
Proof.
  intros Hc. destruct c; try done; cbn [do_call].
  - unfold create_part. fresh_method.
  - unfold create_measure. fresh_method.
  - unfold new_note, create_note, add_pitch, add_div_duration,
      add_duration_type, add_accidental. fresh_method.
  - unfold new_bar_attr, create_bar_attr, add_divisions, add_key, add_time,
      add_clef. fresh_method.
  - unfold create_new_node. fresh_method.
Qed.

Lemma keeps_text_do_call c b :
  is_tuplet c = false → keeps_text (heap b) (heap (do_call c b).2).
Proof.
  intros Hc i e He.
  destruct (fresh_do_call (length (heap b)) c Hc b) as [Hold _]; [done|].
  apply Hold; [|done]. by eapply lookup_lt_Some.
Qed.

(** X16: texts are written once. A script without [tuplet_note] leaves
    the text of every element that was there before it as it was, whether
    its calls return or raise: each method writes the texts of the
    elements it has just made and of no other. *)
Theorem texts_written_once cs b :
  forallb (λ c, negb (is_tuplet c)) cs = true →
  keeps_text (heap b) (heap (exec cs b)).
Proof.
  revert b. induction cs as [|c cs IH]; intros b Hcs.
  - apply keeps_text_refl.
  - cbn [forallb] in Hcs. apply andb_prop in Hcs as [Hc Hcs].
    apply negb_true_iff in Hc.
    eapply keeps_text_trans; [by apply keeps_text_do_call|].
    by apply IH.
Qed.

Lemma texts_written_once_witness :
  keeps_text (heap one_note)
    (heap (exec [NewNote (Some [PyStr "D"; PyInt 0; PyInt 4]) (PyStr "0")
                   (PyStr "quarter") (PyInt 4);
                 CreateMeasure;
                 CreateNewNode 14 "duration" (PyInt 9)] one_note)).
Proof.
  apply (texts_written_once
           [NewNote (Some [PyStr "D"; PyInt 0; PyInt 4]) (PyStr "0")
              (PyStr "quarter") (PyInt 4);
            CreateMeasure;
            CreateNewNode 14 "duration" (PyInt 9)] one_note).
  reflexivity.
Defined.
